(** * IAM binding resource: reconciliation of one role's binding with a
      remote policy (google/resource_iam_binding.go)

    The development follows the Go file: the data the controller handles
    (bindings, policies, the resource data of the configuration framework),
    the three mutation closures that create, update and delete hand to the
    read-modify-write cycle, and the four controller operations written in a
    state monad over the remote authority, the resource data and a log of
    the calls made to the policy updater. *)

From stdpp Require Import base option list strings.

Local Open Scope string_scope.
Local Open Scope list_scope.

(** ** Data model *)

(** Go's [error] interface value; [None] stands for [nil]. *)
Definition error := string.

(** [cloudresourcemanager.Binding]: a role and the members bound to it. *)
Record Binding := mkBinding { Role : string; Members : list string }.

(** [cloudresourcemanager.Policy], restricted to the two fields the
    controller reads or writes. *)
Record Policy := mkPolicy { Etag : string; Bindings : list Binding }.

#[global] Instance Binding_eq_dec : EqDecision Binding.
Proof. solve_decision. Defined.

#[global] Instance Policy_eq_dec : EqDecision Policy.
Proof. solve_decision. Defined.

(** Assignment to [p.Bindings]. *)
Definition set_Bindings (p : Policy) (bs : list Binding) : Policy :=
  {| Etag := Etag p; Bindings := bs |}.

(** The scan shared by read, update and delete:
    [for pos, b := range p.Bindings { if b.Role != role { continue }; ...; break }]
    stops at the first entry whose role is [role] and knows its position. *)
Definition scanRole (role : string) (bs : list Binding) : option (nat * Binding) :=
  list_find (λ b, Role b = role) bs.

(** The entries of a binding list that carry [role], in sequence order. *)
Definition roleEntries (role : string) (bs : list Binding) : list Binding :=
  filter (λ b, Role b = role) bs.

(** Every member some entry of [bs] binds to [role]. *)
Definition roleMembers (role : string) (bs : list Binding) : list string :=
  mjoin (Members <$> roleEntries role bs).

(** "At most one binding entry per role". *)
Definition uniqueRoles (bs : list Binding) : Prop := NoDup (Role <$> bs).

(** ** Binding merge

    Modelled from the spec: [mergeBindings], which lives outside this file.
    Section 4.1: given an ordered sequence of bindings that may contain
    duplicate roles, produce a new ordered sequence where each role appears
    exactly once, with its member set equal to the union of members across
    all entries sharing that role, deduplicated.  The spec fixes no order;
    roles and members are listed here by first appearance, and every
    statement below about merged lists is about membership only. *)
Definition mergeBindings (bindings : list Binding) : list Binding :=
  (λ role, {| Role := role; Members := remove_dups (roleMembers role bindings) |})
    <$> remove_dups (Role <$> bindings).

(** ** The mutation closures handed to the read-modify-write cycle

    Each closure mutates the fetched policy in place and returns an [error];
    here it returns the policy it leaves behind and that error. *)

(** create: [ep.Bindings = mergeBindings(append(ep.Bindings, p)); return nil] *)
Definition createModify (p : Binding) (ep : Policy) : Policy * option error :=
  (set_Bindings ep (mergeBindings (Bindings ep ++ [p])), None).

(** update: overwrite the first entry with the role, append when the scan
    found none. *)
Definition updateModify (binding : Binding) (p : Policy) : Policy * option error :=
  match scanRole (Role binding) (Bindings p) with
  | Some (pos, _) => (set_Bindings p (<[pos := binding]> (Bindings p)), None)
  | None => (set_Bindings p (Bindings p ++ [binding]), None)
  end.

(** delete: [toRemove] starts at -1 and takes the position of the first
    entry with the role; a negative [toRemove] returns at once, otherwise
    [p.Bindings = append(p.Bindings[:toRemove], p.Bindings[toRemove+1:]...)]. *)
Definition deleteModify (binding : Binding) (p : Policy) : Policy * option error :=
  let toRemove : Z :=
    match scanRole (Role binding) (Bindings p) with
    | Some (pos, _) => Z.of_nat pos
    | None => (-1)%Z
    end in
  if (toRemove <? 0)%Z then (p, None)
  else
    let n := Z.to_nat toRemove in
    (set_Bindings p (take n (Bindings p) ++ drop (S n) (Bindings p)), None).

(** ** The framework's resource data and the policy updater *)

(** [schema.ResourceData] for this resource: the identity set by [SetId] and
    the three keys of [iamBindingSchema].  The [members] key is a set
    ([schema.TypeSet]); it is kept here as a list with the same elements.
    The framework enumerates a set without repetitions and in an order of its
    own, which is not modelled: after [d.Set("members", l)] the list kept is
    [l] itself.  Members that a read takes from an entry of the remote
    policy are therefore stated by membership.  The keys of the
    parent-specific schema are
    never written by this file; what [newUpdaterFunc] reads from them is part
    of that function. *)
Record ResourceData := mkResourceData {
  d_id : string;
  d_role : string;
  d_members : list string;
  d_etag : string
}.

Definition with_id (d : ResourceData) (id : string) : ResourceData :=
  {| d_id := id; d_role := d_role d; d_members := d_members d; d_etag := d_etag d |}.

Definition with_etag (d : ResourceData) (e : string) : ResourceData :=
  {| d_id := d_id d; d_role := d_role d; d_members := d_members d; d_etag := e |}.

Definition with_members (d : ResourceData) (ms : list string) : ResourceData :=
  {| d_id := d_id d; d_role := d_role d; d_members := ms; d_etag := d_etag d |}.

Definition with_role (d : ResourceData) (r : string) : ResourceData :=
  {| d_id := d_id d; d_role := r; d_members := d_members d; d_etag := d_etag d |}.

(** [getResourceIamBinding]: the declared binding, built from the resource
    data ([convertStringArr] only retypes the member strings). *)
Definition getResourceIamBinding (d : ResourceData) : Binding :=
  {| Members := d_members d; Role := d_role d |}.

(** [ResourceIamUpdater], the policy updater: an interface implemented per
    kind of remote resource.  [W] is the state of the remote authority; a
    method call may change it.  [GetResourceIamPolicy] fetches the policy.
    The commit method is not named in this file; it is called [commitPolicy]
    as in section 6 of the spec. *)
Record ResourceIamUpdater (W : Type) := mkUpdater {
  GetResourceIamPolicy : W → (error + Policy) * W;
  commitPolicy : Policy → W → option error * W;
  GetResourceId : string;
  DescribeResource : string
}.
Arguments mkUpdater {W}.
Arguments GetResourceIamPolicy {W}.
Arguments commitPolicy {W}.
Arguments GetResourceId {W}.
Arguments DescribeResource {W}.

(** The calls an operation makes to the updater's remote methods. *)
Inductive Call := CallFetch | CallCommit (p : Policy).

#[global] Instance Call_eq_dec : EqDecision Call.
Proof. solve_decision. Defined.

Definition isFetch (c : Call) : bool :=
  match c with CallFetch => true | CallCommit _ => false end.

Definition isCommit (c : Call) : bool :=
  match c with CallFetch => false | CallCommit _ => true end.

Definition fetches (cs : list Call) : nat := length (List.filter isFetch cs).
Definition commits (cs : list Call) : nat := length (List.filter isCommit cs).

(** What an operation runs against: the remote authority, the resource data
    [d] it mutates, and the log of updater calls so far. *)
Record State (W : Type) := mkState {
  remote : W;
  data : ResourceData;
  calls : list Call
}.
Arguments mkState {W}.
Arguments remote {W}.
Arguments data {W}.
Arguments calls {W}.

(** The state an operation leaves when it moved the remote authority to [w]
    and logged [cs], without touching the resource data. *)
Definition logged {W} (s : State W) (w : W) (cs : list Call) : State W :=
  {| remote := w; data := data s; calls := calls s ++ cs |}.

(** The calls logged on the way from [s] to [s']. *)
Definition newCalls {W} (s s' : State W) : list Call :=
  drop (length (calls s)) (calls s').

(** ** A state monad for the controller *)

Definition M (W A : Type) : Type := State W → A * State W.

#[global] Instance M_ret {W} : MRet (M W) := λ A a s, (a, s).
#[global] Instance M_bind {W} : MBind (M W) :=
  λ A B k m s, let '(a, s') := m s in k a s'.

Section Controller.
Context {W Config : Type}.

(** [newResourceIamUpdaterFunc]: builds the updater from the resource data
    and the provider configuration, or fails. *)
Variable newUpdaterFunc : ResourceData → Config → error + ResourceIamUpdater W.

Definition getData : M W ResourceData := λ s, (data s, s).

Definition putData (f : ResourceData → ResourceData) : M W unit :=
  λ s, (tt, {| remote := remote s; data := f (data s); calls := calls s |}).

(** [d.SetId(id)] *)
Definition SetId (id : string) : M W unit := putData (λ d, with_id d id).

(** [updater.GetResourceIamPolicy()], logged. *)
Definition fetchPolicy (updater : ResourceIamUpdater W) : M W (error + Policy) :=
  λ s, let '(r, w) := GetResourceIamPolicy updater (remote s) in
       (r, {| remote := w; data := data s; calls := calls s ++ [CallFetch] |}).

(** The updater's commit, logged with the policy it was given. *)
Definition commit (updater : ResourceIamUpdater W) (p : Policy) : M W (option error) :=
  λ s, let '(r, w) := commitPolicy updater p (remote s) in
       (r, {| remote := w; data := data s; calls := calls s ++ [CallCommit p] |}).

(** Modelled from the spec: [iamPolicyReadModifyWrite], the read-modify-write
    orchestrator, which lives outside this file.  Section 4.2:
    1. call the updater's fetch-policy and propagate any error immediately;
    2. apply the mutation to the fetched policy and propagate any error from
       it immediately, without committing;
    3. call the updater's commit-policy with the mutated policy, including
       its original etag, and propagate any commit error.
    One pass, no retry. *)
Definition iamPolicyReadModifyWrite (updater : ResourceIamUpdater W)
    (modify : Policy → Policy * option error) : M W (option error) :=
  r ← fetchPolicy updater;
  match r with
  | inl err => mret (Some err)
  | inr p =>
    let '(p', e) := modify p in
    match e with
    | Some err => mret (Some err)
    | None => commit updater {| Etag := Etag p; Bindings := Bindings p' |}
    end
  end.

(** [resourceIamBindingRead] *)
Definition resourceIamBindingRead (meta : Config) : M W (option error) :=
  d ← getData;
  match newUpdaterFunc d meta with
  | inl err => mret (Some err)
  | inr updater =>
    let eBinding := getResourceIamBinding d in
    r ← fetchPolicy updater;
    match r with
    | inl err => mret (Some err)
    | inr p =>
      match scanRole (Role eBinding) (Bindings p) with
      | None => SetId "";; mret None
      | Some (_, binding) =>
        putData (λ d, with_etag d (Etag p));;
        putData (λ d, with_members d (Members binding));;
        putData (λ d, with_role d (Role binding));;
        mret None
      end
    end
  end.

(** [resourceIamBindingCreate] *)
Definition resourceIamBindingCreate (meta : Config) : M W (option error) :=
  d ← getData;
  match newUpdaterFunc d meta with
  | inl err => mret (Some err)
  | inr updater =>
    let p := getResourceIamBinding d in
    err ← iamPolicyReadModifyWrite updater (createModify p);
    match err with
    | Some e => mret (Some e)
    | None =>
      SetId (GetResourceId updater +:+ "/" +:+ Role p);;
      resourceIamBindingRead meta
    end
  end.

(** [resourceIamBindingUpdate] *)
Definition resourceIamBindingUpdate (meta : Config) : M W (option error) :=
  d ← getData;
  match newUpdaterFunc d meta with
  | inl err => mret (Some err)
  | inr updater =>
    let binding := getResourceIamBinding d in
    err ← iamPolicyReadModifyWrite updater (updateModify binding);
    match err with
    | Some e => mret (Some e)
    | None => resourceIamBindingRead meta
    end
  end.

(** [resourceIamBindingDelete] *)
Definition resourceIamBindingDelete (meta : Config) : M W (option error) :=
  d ← getData;
  match newUpdaterFunc d meta with
  | inl err => mret (Some err)
  | inr updater =>
    let binding := getResourceIamBinding d in
    err ← iamPolicyReadModifyWrite updater (deleteModify binding);
    match err with
    | Some e => mret (Some e)
    | None => resourceIamBindingRead meta
    end
  end.

End Controller.

(** ** Call sequences *)

(** The call sequences of a read: nothing when the updater cannot be built,
    else one fetch. *)
Inductive readCalls : list Call → Prop :=
  | rc_none : readCalls []
  | rc_fetch : readCalls [CallFetch].

(** The call sequences of create, update and delete: nothing when the updater
    cannot be built; the fetch alone when the cycle stops before the commit;
    fetch and commit when the commit fails or the trailing read cannot build
    its updater; fetch, commit and the fetch of the trailing read. *)
Inductive writeCalls : list Call → Prop :=
  | wc_none : writeCalls []
  | wc_fetch : writeCalls [CallFetch]
  | wc_commit c : writeCalls [CallFetch; CallCommit c]
  | wc_read c : writeCalls [CallFetch; CallCommit c; CallFetch].

(** ** A reference updater

    The remote authority holds one policy; a fetch returns it and a commit
    stores what it is given.  Used to run the operations on concrete inputs. *)
Definition storeUpdater (rid : string) : ResourceIamUpdater Policy :=
  {| GetResourceIamPolicy := λ w, (inr w, w);
     commitPolicy := λ p _, (None, p);
     GetResourceId := rid;
     DescribeResource := "store " +:+ rid |}.

Definition storeFactory (rid : string) (d : ResourceData) (_ : unit)
  : error + ResourceIamUpdater Policy := inr (storeUpdater rid).

Definition viewer_xy : Policy :=
  {| Etag := "e1"; Bindings := [ {| Role := "viewer"; Members := ["x"; "y"] |} ] |}.

(** ** Concrete runs against the reference updater *)

Definition declared_viewer_ab : ResourceData :=
  {| d_id := ""; d_role := "viewer"; d_members := ["a"; "b"]; d_etag := "" |}.

Definition owner_only : Policy :=
  {| Etag := "e3"; Bindings := [ {| Role := "owner"; Members := ["o"] |} ] |}.

(** The role is not bound yet. *)
Definition fresh_start : State Policy :=
  {| remote := owner_only; data := declared_viewer_ab; calls := [] |}.


(** An updater whose fetch fails. *)
Definition brokenUpdater : ResourceIamUpdater Policy :=
  {| GetResourceIamPolicy := λ w, (inl "fetch failed", w);
     commitPolicy := λ p _, (None, p);
     GetResourceId := "projects/p";
     DescribeResource := "broken" |}.

(** A mutation that fails. *)
Definition failingModify (p : Policy) : Policy * option error :=
  (p, Some "mutation failed").

(** ** Statements of the spec, as written *)

(** "Post-update membership for the role equals exactly the declared member
    set", for one declared binding and one fetched policy. *)
Definition updateExact (binding : Binding) (p : Policy) : Prop :=
  ∀ m, m ∈ roleMembers (Role binding) (Bindings (updateModify binding p).1)
       ↔ m ∈ Members binding.

(** ** Concrete policies *)

Definition viewer_twice : Policy :=
  {| Etag := "e7";
     Bindings := [ {| Role := "owner"; Members := ["o"] |};
                   {| Role := "viewer"; Members := ["x"] |};
                   {| Role := "viewer"; Members := ["w"] |} ] |}.

(** ** The scans of update and delete as recursions

    What the loop of update followed by its [if !found] leaves in
    [p.Bindings], and what the loop of delete followed by its slice
    expression leaves, written by recursion on the binding list.  Both are
    proved equal to the closures above and serve to reason about how the
    mutations compose. *)
Fixpoint replaceFirst (binding : Binding) (bs : list Binding) : list Binding :=
  match bs with
  | [] => [binding]
  | b :: rest =>
    if decide (Role b = Role binding) then binding :: rest
    else b :: replaceFirst binding rest
  end.

Fixpoint removeFirst (role : string) (bs : list Binding) : list Binding :=
  match bs with
  | [] => []
  | b :: rest =>
    if decide (Role b = role) then rest else b :: removeFirst role rest
  end.

(** ** Factories that fail, or build an updater that fails *)

Definition noUpdater (d : ResourceData) (_ : unit)
  : error + ResourceIamUpdater Policy := inl "no updater".

Definition brokenFactory (d : ResourceData) (_ : unit)
  : error + ResourceIamUpdater Policy := inr brokenUpdater.

(** The declared role is bound once, to "x" and "y", and the resource has
    its identity. *)
Definition tracked_start : State Policy :=
  {| remote := {| Etag := "e5";
                  Bindings := [ {| Role := "owner"; Members := ["o"] |};
                                {| Role := "viewer"; Members := ["x"; "y"] |} ] |};
     data := with_id declared_viewer_ab "projects/p/viewer"; calls := [] |}.

(** * Properties *)

(** ** The scan *)

Lemma scanRole_first role pre e post :
  Forall (λ b, Role b ≠ role) pre → Role e = role →
  scanRole role (pre ++ e :: post) = Some (length pre, e).
Proof.
  unfold scanRole. intros Hpre He.
  induction Hpre as [|b pre Hb _ IH]; simpl.
  - rewrite decide_True; done.
  - rewrite decide_False by done. by rewrite IH.
Qed.

Lemma scanRole_Some role bs pos e :
  scanRole role bs = Some (pos, e) →
  ∃ pre post, bs = pre ++ e :: post ∧ length pre = pos
              ∧ Forall (λ b, Role b ≠ role) pre ∧ Role e = role.
Proof.
  unfold scanRole. revert pos.
  induction bs as [|b bs IH]; intros pos; simpl; [done|].
  destruct (decide (Role b = role)) as [Hb|Hb].
  - intros [= <- <-]. by exists [], bs.
  - destruct (list_find _ bs) as [[i x]|] eqn:Hf; simpl; [|done].
    intros [= <- <-].
    destruct (IH i eq_refl) as (pre & post & -> & Hlen & Hpre & He).
    exists (b :: pre), post. repeat split; simpl; auto.
Qed.

Lemma scanRole_None role bs :
  scanRole role bs = None ↔ Forall (λ b, Role b ≠ role) bs.
Proof. unfold scanRole. apply list_find_None. Qed.

(** ** Entries and members of a role *)

Lemma roleEntries_absent role bs :
  Forall (λ b, Role b ≠ role) bs → roleEntries role bs = [].
Proof.
  unfold roleEntries. induction 1 as [|b bs Hb _ IH]; [done|].
  rewrite filter_cons_False; done.
Qed.

Lemma roleEntries_app role bs1 bs2 :
  roleEntries role (bs1 ++ bs2) = roleEntries role bs1 ++ roleEntries role bs2.
Proof. apply filter_app. Qed.

Lemma roleEntries_hit role e bs :
  Role e = role → roleEntries role (e :: bs) = e :: roleEntries role bs.
Proof. intros. unfold roleEntries. by rewrite filter_cons_True. Qed.

Lemma roleEntries_split role pre e post :
  Forall (λ b, Role b ≠ role) pre → Role e = role →
  roleEntries role (pre ++ e :: post) = e :: roleEntries role post.
Proof.
  intros Hpre He.
  by rewrite roleEntries_app, (roleEntries_absent _ _ Hpre), roleEntries_hit.
Qed.

Lemma roleMembers_app role bs1 bs2 :
  roleMembers role (bs1 ++ bs2) = roleMembers role bs1 ++ roleMembers role bs2.
Proof.
  unfold roleMembers. by rewrite roleEntries_app, fmap_app, join_app.
Qed.

Lemma roleMembers_single (b : Binding) :
  roleMembers (Role b) [b] = Members b.
Proof.
  unfold roleMembers. rewrite roleEntries_hit by done.
  rewrite (roleEntries_absent _ []) by constructor. simpl. apply app_nil_r.
Qed.

Lemma elem_of_roleMembers role bs m :
  m ∈ roleMembers role bs ↔ ∃ b, b ∈ bs ∧ Role b = role ∧ m ∈ Members b.
Proof.
  unfold roleMembers, roleEntries. rewrite list_elem_of_join. split.
  - intros (ms & Hm & Hms). apply list_elem_of_fmap in Hms as (b & -> & Hb).
    apply list_elem_of_filter in Hb as [Hr Hb]. eauto.
  - intros (b & Hb & Hr & Hm). exists (Members b). split; [done|].
    apply list_elem_of_fmap. exists b. split; [done|].
    apply list_elem_of_filter. done.
Qed.

(** ** The merge: each role once, members the union *)

Lemma mergeBindings_roles bs :
  Role <$> mergeBindings bs = remove_dups (Role <$> bs).
Proof.
  unfold mergeBindings. rewrite <- list_fmap_compose.
  rewrite <- (list_fmap_id (remove_dups (Role <$> bs))) at 2.
  apply list_fmap_ext. done.
Qed.

Lemma mergeBindings_unique bs : uniqueRoles (mergeBindings bs).
Proof. unfold uniqueRoles. rewrite mergeBindings_roles. apply NoDup_remove_dups. Qed.

Lemma elem_of_mergeBindings bs b :
  b ∈ mergeBindings bs ↔
  Role b ∈ (Role <$> bs) ∧ Members b = remove_dups (roleMembers (Role b) bs).
Proof.
  unfold mergeBindings. rewrite list_elem_of_fmap. split.
  - intros (r & -> & Hr). simpl. split; [|done]. by apply elem_of_remove_dups.
  - intros [Hr Hm]. exists (Role b). split.
    + destruct b as [r ms]. simpl in *. by rewrite Hm.
    + by apply elem_of_remove_dups.
Qed.

Lemma mergeBindings_members role bs m :
  m ∈ roleMembers role (mergeBindings bs) ↔ m ∈ roleMembers role bs.
Proof.
  rewrite !elem_of_roleMembers. split.
  - intros (b & Hb & <- & Hm). apply elem_of_mergeBindings in Hb as [_ Hms].
    rewrite Hms, elem_of_remove_dups in Hm.
    by apply elem_of_roleMembers in Hm.
  - intros (b & Hb & <- & Hm).
    exists {| Role := Role b; Members := remove_dups (roleMembers (Role b) bs) |}.
    split; [|split; [done|]].
    + apply elem_of_mergeBindings. simpl. split; [|done].
      apply list_elem_of_fmap. eauto.
    + simpl. apply elem_of_remove_dups, elem_of_roleMembers. eauto.
Qed.

(** ** The scenarios of the spec *)

Example create_scenario :
  Bindings (createModify {| Role := "viewer"; Members := ["y"; "z"] |} viewer_xy).1
  = [ {| Role := "viewer"; Members := ["x"; "y"; "z"] |} ].
Proof. vm_compute. reflexivity. Qed.

Example update_scenario :
  Bindings (updateModify {| Role := "viewer"; Members := ["y"; "z"] |} viewer_xy).1
  = [ {| Role := "viewer"; Members := ["y"; "z"] |} ].
Proof. vm_compute. reflexivity. Qed.

Example delete_scenario :
  deleteModify {| Role := "editor"; Members := [] |} viewer_xy = (viewer_xy, None).
Proof. vm_compute. reflexivity. Qed.

(** ** The three mutations *)

Lemma updateModify_found binding p pre e post :
  Bindings p = pre ++ e :: post →
  Forall (λ b, Role b ≠ Role binding) pre → Role e = Role binding →
  updateModify binding p = (set_Bindings p (pre ++ binding :: post), None).
Proof.
  intros Hp Hpre He. unfold updateModify.
  rewrite Hp, (scanRole_first _ _ _ _ Hpre He).
  rewrite <- (Nat.add_0_r (length pre)), insert_app_r. done.
Qed.

Lemma updateModify_absent binding p :
  Forall (λ b, Role b ≠ Role binding) (Bindings p) →
  updateModify binding p = (set_Bindings p (Bindings p ++ [binding]), None).
Proof.
  intros Hp. unfold updateModify.
  by rewrite (proj2 (scanRole_None _ _) Hp).
Qed.

Lemma deleteModify_found binding p pre e post :
  Bindings p = pre ++ e :: post →
  Forall (λ b, Role b ≠ Role binding) pre → Role e = Role binding →
  deleteModify binding p = (set_Bindings p (pre ++ post), None).
Proof.
  intros Hp Hpre He. unfold deleteModify.
  rewrite Hp, (scanRole_first _ _ _ _ Hpre He).
  destruct (Z.ltb_spec (Z.of_nat (length pre)) 0) as [Hneg|_]; [lia|].
  rewrite Nat2Z.id, take_app_length.
  rewrite (cons_middle e pre post), app_assoc.
  rewrite drop_app_length'; [done|].
  rewrite length_app. simpl. lia.
Qed.

Lemma deleteModify_absent binding p :
  Forall (λ b, Role b ≠ Role binding) (Bindings p) →
  deleteModify binding p = (p, None).
Proof.
  intros Hp. unfold deleteModify.
  by rewrite (proj2 (scanRole_None _ _) Hp).
Qed.

(** Either no entry carries the role, or the list splits at the first one
    that does. *)
Lemma first_entry_split role bs :
  Forall (λ b, Role b ≠ role) bs
  ∨ ∃ pre e post, bs = pre ++ e :: post
                  ∧ Forall (λ b, Role b ≠ role) pre ∧ Role e = role.
Proof.
  destruct (scanRole role bs) as [[pos e]|] eqn:Hscan.
  - right. apply scanRole_Some in Hscan as (pre & post & ? & _ & ? & ?).
    by exists pre, e, post.
  - left. by apply scanRole_None.
Qed.

Lemma create_members_union p ep m :
  m ∈ roleMembers (Role p) (Bindings (createModify p ep).1)
  ↔ m ∈ roleMembers (Role p) (Bindings ep) ∨ m ∈ Members p.
Proof.
  simpl. rewrite mergeBindings_members, roleMembers_app, roleMembers_single.
  apply elem_of_app.
Qed.

(** ** Update *)

(** C1, as written, fails: the scan stops at the first entry with the role,
    so a later entry with the same role keeps its members.  Here "w" is still
    bound to "viewer" after an update that declares only "y" and "z". *)
Lemma update_keeps_later_duplicates :
  ¬ updateExact {| Role := "viewer"; Members := ["y"; "z"] |} viewer_twice.
Proof.
  intros Hex. specialize (Hex "w"). destruct Hex as [Hw _].
  assert (Hin : "w" ∈ ["y"; "z"]) by (apply Hw; vm_compute; repeat constructor).
  apply list_elem_of_In in Hin. simpl in Hin.
  destruct Hin as [Hy|[Hz|[]]]; discriminate.
Qed.

(** C1 (amended): for every fetched policy and every declared binding the
    update mutation overwrites the first entry whose role is the declared
    role with the declared binding, and appends the declared binding when no
    entry has that role; it returns no error.  Afterwards the first entry
    with the declared role is the declared binding, which is what a read
    locates.  When the fetched policy has at most one entry with the declared
    role, the entries with that role after the update are the declared
    binding alone, so the role's members are exactly the declared members. *)
Theorem update_replaces_first_entry (binding : Binding) (p : Policy) :
  (∀ pre e post,
      Bindings p = pre ++ e :: post →
      Forall (λ b, Role b ≠ Role binding) pre → Role e = Role binding →
      updateModify binding p = (set_Bindings p (pre ++ binding :: post), None))
  ∧ (Forall (λ b, Role b ≠ Role binding) (Bindings p) →
      updateModify binding p = (set_Bindings p (Bindings p ++ [binding]), None))
  ∧ (∃ pos, scanRole (Role binding) (Bindings (updateModify binding p).1)
            = Some (pos, binding))
  ∧ ((length (roleEntries (Role binding) (Bindings p)) ≤ 1)%nat →
      roleEntries (Role binding) (Bindings (updateModify binding p).1) = [binding]
      ∧ roleMembers (Role binding) (Bindings (updateModify binding p).1)
        = Members binding).
Proof.
  split; [|split; [|split]].
  - intros pre e post. apply updateModify_found.
  - apply updateModify_absent.
  - destruct (first_entry_split (Role binding) (Bindings p))
      as [Habs|(pre & e & post & Hp & Hpre & He)].
    + rewrite (updateModify_absent _ _ Habs). simpl.
      exists (length (Bindings p)). by apply scanRole_first.
    + rewrite (updateModify_found _ _ _ _ _ Hp Hpre He). simpl.
      exists (length pre). by apply scanRole_first.
  - intros Hone.
    assert (Hent : roleEntries (Role binding) (Bindings (updateModify binding p).1)
                   = [binding]).
    { destruct (first_entry_split (Role binding) (Bindings p))
        as [Habs|(pre & e & post & Hp & Hpre & He)].
      - rewrite (updateModify_absent _ _ Habs). simpl.
        rewrite roleEntries_app, (roleEntries_absent _ _ Habs).
        by rewrite roleEntries_hit.
      - rewrite (updateModify_found _ _ _ _ _ Hp Hpre He). simpl.
        rewrite Hp, (roleEntries_split _ _ _ _ Hpre He) in Hone.
        rewrite (roleEntries_split _ _ _ _ Hpre eq_refl).
        destruct (roleEntries (Role binding) post); [done|simpl in Hone; lia]. }
    split; [done|].
    unfold roleMembers. rewrite Hent. simpl. apply app_nil_r.
Qed.

Lemma update_replaces_first_entry_witness :
  updateModify {| Role := "viewer"; Members := ["y"; "z"] |} viewer_xy
  = (set_Bindings viewer_xy [ {| Role := "viewer"; Members := ["y"; "z"] |} ], None)
  ∧ roleMembers "viewer"
      (Bindings (updateModify {| Role := "viewer"; Members := ["y"; "z"] |} viewer_xy).1)
    = ["y"; "z"].
Proof.
  destruct (update_replaces_first_entry
              {| Role := "viewer"; Members := ["y"; "z"] |} viewer_xy)
    as (Hfound & _ & _ & Hexact).
  split.
  - apply (Hfound [] {| Role := "viewer"; Members := ["x"; "y"] |} []).
    + reflexivity.
    + constructor.
    + reflexivity.
  - apply Hexact. vm_compute. lia.
Defined.

(** ** Create *)

(** C2: the create mutation sets the binding list to the merge of the
    existing list with the declared binding appended, and returns no error;
    every member the declared role had before and every declared member is a
    member of that role afterwards. *)
Theorem create_never_shrinks (p : Binding) (ep : Policy) :
  createModify p ep = (set_Bindings ep (mergeBindings (Bindings ep ++ [p])), None)
  ∧ roleMembers (Role p) (Bindings ep) ++ Members p
    ⊆ roleMembers (Role p) (Bindings (createModify p ep).1).
Proof.
  split; [done|].
  intros m Hm. apply create_members_union. by apply elem_of_app in Hm.
Qed.

(** ** One entry per role *)

Lemma uniqueRoles_drop_middle pre (e : Binding) post :
  uniqueRoles (pre ++ e :: post) → uniqueRoles (pre ++ post).
Proof.
  unfold uniqueRoles. rewrite !fmap_app, fmap_cons.
  intros Hnd. apply (sublist_NoDup _ _ Hnd).
  apply sublist_app; [done|]. by apply sublist_cons.
Qed.

(** C3: when each role appears in at most one entry of the starting policy,
    it does so after the create, the update and the delete mutation. *)
Theorem mutations_keep_roles_unique (binding : Binding) (p : Policy) :
  uniqueRoles (Bindings p) →
  uniqueRoles (Bindings (createModify binding p).1)
  ∧ uniqueRoles (Bindings (updateModify binding p).1)
  ∧ uniqueRoles (Bindings (deleteModify binding p).1).
Proof.
  intros Huniq. split; [apply mergeBindings_unique|].
  destruct (first_entry_split (Role binding) (Bindings p))
    as [Habs|(pre & e & post & Hp & Hpre & He)].
  - rewrite (updateModify_absent _ _ Habs), (deleteModify_absent _ _ Habs).
    split; [|done]. simpl. unfold uniqueRoles in *.
    rewrite fmap_app. apply NoDup_app. split; [done|]. split.
    + intros r Hr Hin. apply list_elem_of_singleton in Hin as ->.
      apply list_elem_of_fmap in Hr as (b & Hrb & Hb).
      rewrite Forall_forall in Habs. by apply (Habs b).
    + apply NoDup_singleton.
  - rewrite (updateModify_found _ _ _ _ _ Hp Hpre He).
    rewrite (deleteModify_found _ _ _ _ _ Hp Hpre He). simpl.
    rewrite Hp in Huniq. split.
    + unfold uniqueRoles in *.
      rewrite fmap_app, fmap_cons in *. by rewrite <- He.
    + by apply uniqueRoles_drop_middle in Huniq.
Qed.

Lemma mutations_keep_roles_unique_witness :
  uniqueRoles (Bindings (createModify {| Role := "viewer"; Members := ["y"; "z"] |} viewer_xy).1)
  ∧ uniqueRoles (Bindings (updateModify {| Role := "viewer"; Members := ["y"; "z"] |} viewer_xy).1)
  ∧ uniqueRoles (Bindings (deleteModify {| Role := "viewer"; Members := ["y"; "z"] |} viewer_xy).1).
Proof.
  apply (mutations_keep_roles_unique
           {| Role := "viewer"; Members := ["y"; "z"] |} viewer_xy).
  unfold uniqueRoles. simpl. apply NoDup_singleton.
Defined.

(** ** Delete *)

(** C4: on a policy with no entry for the declared role the delete mutation
    returns the policy as it was and no error; run again on its own result it
    does the same. *)
Theorem delete_absent_role_noop (binding : Binding) (p : Policy) :
  Forall (λ b, Role b ≠ Role binding) (Bindings p) →
  deleteModify binding p = (p, None)
  ∧ deleteModify binding (deleteModify binding p).1 = (p, None).
Proof.
  intros Habs. rewrite (deleteModify_absent _ _ Habs). simpl.
  split; [done|]. by apply deleteModify_absent.
Qed.

Lemma delete_absent_role_noop_witness :
  deleteModify {| Role := "editor"; Members := [] |} viewer_xy = (viewer_xy, None)
  ∧ deleteModify {| Role := "editor"; Members := [] |}
      (deleteModify {| Role := "editor"; Members := [] |} viewer_xy).1
    = (viewer_xy, None).
Proof.
  apply (delete_absent_role_noop {| Role := "editor"; Members := [] |} viewer_xy).
  simpl. constructor; [discriminate | constructor].
Defined.

(** C10: when more than one entry of the fetched policy has the declared
    role, the delete mutation removes the first of them and nothing else:
    the entries before and after it stay in order, so every later entry with
    that role is still in the resulting policy. *)
Theorem delete_removes_first_duplicate_only (binding : Binding) (p : Policy) :
  (1 < length (roleEntries (Role binding) (Bindings p)))%nat →
  ∃ pre e post,
    Bindings p = pre ++ e :: post
    ∧ Forall (λ b, Role b ≠ Role binding) pre ∧ Role e = Role binding
    ∧ deleteModify binding p = (set_Bindings p (pre ++ post), None)
    ∧ roleEntries (Role binding) (Bindings p) = e :: roleEntries (Role binding) post
    ∧ roleEntries (Role binding) (Bindings (deleteModify binding p).1)
      = roleEntries (Role binding) post
    ∧ roleEntries (Role binding) post ≠ [].
Proof.
  intros Hdup.
  destruct (first_entry_split (Role binding) (Bindings p))
    as [Habs|(pre & e & post & Hp & Hpre & He)].
  - rewrite (roleEntries_absent _ _ Habs) in Hdup. simpl in Hdup. lia.
  - exists pre, e, post.
    rewrite (deleteModify_found _ _ _ _ _ Hp Hpre He). simpl.
    rewrite Hp, (roleEntries_split _ _ _ _ Hpre He) in Hdup.
    rewrite Hp at 2. rewrite (roleEntries_split _ _ _ _ Hpre He).
    rewrite roleEntries_app, (roleEntries_absent _ _ Hpre).
    repeat split; try done.
    intros Hnil. rewrite Hnil in Hdup. simpl in Hdup. lia.
Qed.

Lemma delete_removes_first_duplicate_only_witness :
  ∃ pre e post,
    Bindings viewer_twice = pre ++ e :: post
    ∧ Forall (λ b, Role b ≠ "viewer") pre ∧ Role e = "viewer"
    ∧ deleteModify {| Role := "viewer"; Members := [] |} viewer_twice
      = (set_Bindings viewer_twice (pre ++ post), None)
    ∧ roleEntries "viewer" (Bindings viewer_twice) = e :: roleEntries "viewer" post
    ∧ roleEntries "viewer"
        (Bindings (deleteModify {| Role := "viewer"; Members := [] |} viewer_twice).1)
      = roleEntries "viewer" post
    ∧ roleEntries "viewer" post ≠ [].
Proof.
  apply (delete_removes_first_duplicate_only
           {| Role := "viewer"; Members := [] |} viewer_twice).
  vm_compute. lia.
Defined.

Example delete_duplicate_scenario :
  Bindings (deleteModify {| Role := "viewer"; Members := [] |} viewer_twice).1
  = [ {| Role := "owner"; Members := ["o"] |};
      {| Role := "viewer"; Members := ["w"] |} ].
Proof. vm_compute. reflexivity. Qed.

(** ** The read-modify-write cycle *)

Lemma newCalls_logged {W} (s : State W) w cs : newCalls s (logged s w cs) = cs.
Proof. unfold newCalls, logged. simpl. apply drop_app_length. Qed.

(** The outcome of one cycle, by cases on the fetch and on the mutation. *)
Lemma iamPolicyReadModifyWrite_run {W} (updater : ResourceIamUpdater W) modify s :
  iamPolicyReadModifyWrite updater modify s =
  match GetResourceIamPolicy updater (remote s) with
  | (inl err, w) => (Some err, logged s w [CallFetch])
  | (inr p, w) =>
    match modify p with
    | (_, Some err) => (Some err, logged s w [CallFetch])
    | (p', None) =>
      let c := {| Etag := Etag p; Bindings := Bindings p' |} in
      ((commitPolicy updater c w).1,
       logged s (commitPolicy updater c w).2 [CallFetch; CallCommit c])
    end
  end.
Proof.
  unfold iamPolicyReadModifyWrite, mbind, M_bind, mret, M_ret, fetchPolicy, commit.
  destruct (GetResourceIamPolicy updater (remote s)) as [[err|p] w]; [done|].
  destruct (modify p) as [p' [err|]]; [done|]. simpl.
  destruct (commitPolicy updater _ w) as [r w'].
  unfold logged. simpl. by rewrite <- app_assoc.
Qed.

(** C5: one read-modify-write cycle attempts a commit exactly when the fetch
    and the mutation both succeeded.  A fetch error is returned at once: the
    only call made is the fetch and the outcome does not depend on the
    mutation.  A mutation error is returned at once, with the fetch as the
    only call.  Otherwise the calls are the fetch and one commit, of the
    policy with the mutated bindings and the etag that was fetched, and the
    cycle returns what the commit returns. *)
Theorem rmw_commits_iff_fetch_and_mutation_succeed {W}
    (updater : ResourceIamUpdater W) (modify : Policy → Policy * option error)
    (s : State W) :
  let out := iamPolicyReadModifyWrite updater modify s in
  let made := newCalls s out.2 in
  (∀ err w, GetResourceIamPolicy updater (remote s) = (inl err, w) →
     out = (Some err, logged s w [CallFetch]) ∧ made = [CallFetch])
  ∧ (∀ p w p' err,
       GetResourceIamPolicy updater (remote s) = (inr p, w) →
       modify p = (p', Some err) →
       out = (Some err, logged s w [CallFetch]) ∧ made = [CallFetch])
  ∧ (∀ p w p',
       GetResourceIamPolicy updater (remote s) = (inr p, w) →
       modify p = (p', None) →
       ∃ c, Bindings c = Bindings p' ∧ Etag c = Etag p
            ∧ out.1 = (commitPolicy updater c w).1
            ∧ remote out.2 = (commitPolicy updater c w).2
            ∧ data out.2 = data s
            ∧ made = [CallFetch; CallCommit c])
  ∧ ((∃ c, CallCommit c ∈ made)
     ↔ ∃ p w p', GetResourceIamPolicy updater (remote s) = (inr p, w)
                 ∧ modify p = (p', None)).
Proof.
  intros out made. subst made out.
  rewrite iamPolicyReadModifyWrite_run.
  destruct (GetResourceIamPolicy updater (remote s)) as [[err|p] w] eqn:Hfetch.
  - simpl. rewrite newCalls_logged. split; [|split; [|split; [|split]]].
    + by intros ?? [= -> ->].
    + intros ????. discriminate.
    + intros ???. discriminate.
    + intros [c Hc]. apply list_elem_of_singleton in Hc. discriminate.
    + intros (? & ? & ? & ? & _). discriminate.
  - destruct (modify p) as [p' [err|]] eqn:Hmod; simpl; rewrite newCalls_logged;
      (split; [|split; [|split; [|split]]]).
    + intros ??. discriminate.
    + intros ???? [= <- <-]. rewrite Hmod. by intros [= _ ->].
    + intros ??? [= <- <-]. rewrite Hmod. discriminate.
    + intros [c Hc]. apply list_elem_of_singleton in Hc. discriminate.
    + intros (? & ? & ? & [= <- <-] & Hm). rewrite Hmod in Hm. discriminate.
    + intros ??. discriminate.
    + intros ???? [= <- <-]. rewrite Hmod. discriminate.
    + intros ??? [= <- <-]. rewrite Hmod. intros [= <-].
      by exists {| Etag := Etag p; Bindings := Bindings p' |}.
    + intros _. by exists p, w, p'.
    + intros _. eexists. apply list_elem_of_further, list_elem_of_here.
Qed.

Lemma rmw_commits_iff_fetch_and_mutation_succeed_witness :
  ∃ c, Bindings c = Bindings (createModify (getResourceIamBinding declared_viewer_ab) owner_only).1
       ∧ Etag c = "e3"
       ∧ newCalls fresh_start
           (iamPolicyReadModifyWrite (storeUpdater "projects/p")
              (createModify (getResourceIamBinding declared_viewer_ab)) fresh_start).2
         = [CallFetch; CallCommit c].
Proof.
  destruct (rmw_commits_iff_fetch_and_mutation_succeed (storeUpdater "projects/p")
              (createModify (getResourceIamBinding declared_viewer_ab)) fresh_start)
    as (_ & _ & Hok & _).
  destruct (Hok owner_only owner_only
              (createModify (getResourceIamBinding declared_viewer_ab) owner_only).1
              eq_refl eq_refl)
    as (c & Hb & He & _ & _ & _ & Hmade).
  exists c. split; [exact Hb|]. split; [exact He|exact Hmade].
Defined.

Example rmw_fetch_error :
  iamPolicyReadModifyWrite brokenUpdater
    (createModify (getResourceIamBinding declared_viewer_ab)) fresh_start
  = (Some "fetch failed", logged fresh_start owner_only [CallFetch]).
Proof. reflexivity. Qed.

Example rmw_mutation_error :
  iamPolicyReadModifyWrite (storeUpdater "projects/p") failingModify fresh_start
  = (Some "mutation failed", logged fresh_start owner_only [CallFetch]).
Proof. reflexivity. Qed.

(** ** The controller operations *)

Section Operations.
Context {W Config : Type}.
Variable newUpdaterFunc : ResourceData → Config → error + ResourceIamUpdater W.

(** The outcome of a read, by cases. *)
Lemma resourceIamBindingRead_run meta (s : State W) :
  resourceIamBindingRead newUpdaterFunc meta s =
  match newUpdaterFunc (data s) meta with
  | inl err => (Some err, s)
  | inr updater =>
    match GetResourceIamPolicy updater (remote s) with
    | (inl err, w) => (Some err, logged s w [CallFetch])
    | (inr p, w) =>
      match scanRole (d_role (data s)) (Bindings p) with
      | None =>
        (None, {| remote := w; data := with_id (data s) "";
                  calls := calls s ++ [CallFetch] |})
      | Some (_, binding) =>
        (None, {| remote := w;
                  data := {| d_id := d_id (data s); d_role := Role binding;
                             d_members := Members binding; d_etag := Etag p |};
                  calls := calls s ++ [CallFetch] |})
      end
    end
  end.
Proof.
  unfold resourceIamBindingRead, mbind, M_bind, mret, M_ret, getData, putData,
    SetId, fetchPolicy. simpl.
  destruct (newUpdaterFunc (data s) meta) as [err|updater]; [done|].
  destruct (GetResourceIamPolicy updater (remote s)) as [[err|p] w]; [done|].
  destruct (scanRole _ (Bindings p)) as [[pos binding]|]; done.
Qed.

(** Create, update and delete build the updater, run one cycle with their
    mutation for the declared binding, stop on its error and else read;
    create sets the identity before that read. *)
Lemma resourceIamBindingCreate_run meta (s : State W) :
  resourceIamBindingCreate newUpdaterFunc meta s =
  match newUpdaterFunc (data s) meta with
  | inl err => (Some err, s)
  | inr updater =>
    let p := getResourceIamBinding (data s) in
    match iamPolicyReadModifyWrite updater (createModify p) s with
    | (Some e, s1) => (Some e, s1)
    | (None, s1) =>
      resourceIamBindingRead newUpdaterFunc meta
        {| remote := remote s1;
           data := with_id (data s1) (GetResourceId updater +:+ "/" +:+ Role p);
           calls := calls s1 |}
    end
  end.
Proof.
  unfold resourceIamBindingCreate, mbind, M_bind, mret, M_ret, getData, putData,
    SetId. simpl.
  destruct (newUpdaterFunc (data s) meta) as [err|updater]; [done|].
  destruct (iamPolicyReadModifyWrite updater _ s) as [[e|] s1]; done.
Qed.

Lemma resourceIamBindingUpdate_run meta (s : State W) :
  resourceIamBindingUpdate newUpdaterFunc meta s =
  match newUpdaterFunc (data s) meta with
  | inl err => (Some err, s)
  | inr updater =>
    let binding := getResourceIamBinding (data s) in
    match iamPolicyReadModifyWrite updater (updateModify binding) s with
    | (Some e, s1) => (Some e, s1)
    | (None, s1) => resourceIamBindingRead newUpdaterFunc meta s1
    end
  end.
Proof.
  unfold resourceIamBindingUpdate, mbind, M_bind, mret, M_ret, getData. simpl.
  destruct (newUpdaterFunc (data s) meta) as [err|updater]; [done|].
  destruct (iamPolicyReadModifyWrite updater _ s) as [[e|] s1]; done.
Qed.

Lemma resourceIamBindingDelete_run meta (s : State W) :
  resourceIamBindingDelete newUpdaterFunc meta s =
  match newUpdaterFunc (data s) meta with
  | inl err => (Some err, s)
  | inr updater =>
    let binding := getResourceIamBinding (data s) in
    match iamPolicyReadModifyWrite updater (deleteModify binding) s with
    | (Some e, s1) => (Some e, s1)
    | (None, s1) => resourceIamBindingRead newUpdaterFunc meta s1
    end
  end.
Proof.
  unfold resourceIamBindingDelete, mbind, M_bind, mret, M_ret, getData. simpl.
  destruct (newUpdaterFunc (data s) meta) as [err|updater]; [done|].
  destruct (iamPolicyReadModifyWrite updater _ s) as [[e|] s1]; done.
Qed.

(** C6: when the updater is built, the fetch succeeds and the fetched policy
    has no entry for the declared role, read returns no error and sets the
    identity to the empty string; role, members and etag of the resource
    data stay as they were, and the fetch is the only call. *)
Theorem read_absent_clears_identity meta (s : State W) updater p w :
  newUpdaterFunc (data s) meta = inr updater →
  GetResourceIamPolicy updater (remote s) = (inr p, w) →
  Forall (λ b, Role b ≠ d_role (data s)) (Bindings p) →
  resourceIamBindingRead newUpdaterFunc meta s
  = (None, {| remote := w; data := with_id (data s) "";
              calls := calls s ++ [CallFetch] |})
  ∧ d_id (data (resourceIamBindingRead newUpdaterFunc meta s).2) = "".
Proof.
  intros Hnew Hfetch Habs.
  rewrite resourceIamBindingRead_run, Hnew, Hfetch.
  by rewrite (proj2 (scanRole_None _ _) Habs).
Qed.

(** The calls of a read. *)
Lemma resourceIamBindingRead_calls meta (s : State W) :
  ∃ made, calls (resourceIamBindingRead newUpdaterFunc meta s).2 = calls s ++ made
          ∧ readCalls made.
Proof.
  rewrite resourceIamBindingRead_run.
  destruct (newUpdaterFunc (data s) meta) as [err|updater]; simpl.
  { exists []. split; [by rewrite app_nil_r|constructor]. }
  exists [CallFetch]. split; [|constructor].
  destruct (GetResourceIamPolicy updater (remote s)) as [[err|p] w]; [done|].
  destruct (scanRole _ (Bindings p)) as [[pos binding]|]; done.
Qed.

(** The calls of one cycle followed, on success, by a read from a state
    that differs from the one the cycle left only in the resource data. *)
Lemma cycle_then_read_calls meta updater modify (s : State W)
    (touch : ResourceData → ResourceData) :
  ∃ made,
    calls (match iamPolicyReadModifyWrite updater modify s with
           | (Some e, s1) => (Some e, s1)
           | (None, s1) =>
             resourceIamBindingRead newUpdaterFunc meta
               {| remote := remote s1; data := touch (data s1); calls := calls s1 |}
           end).2 = calls s ++ made
    ∧ writeCalls made.
Proof.
  rewrite iamPolicyReadModifyWrite_run.
  destruct (GetResourceIamPolicy updater (remote s)) as [[err|p] w].
  { exists [CallFetch]. split; [done|constructor]. }
  destruct (modify p) as [p' [err|]].
  { exists [CallFetch]. split; [done|constructor]. }
  simpl. destruct (commitPolicy updater _ w) as [[err|] w']; simpl.
  { eexists. split; [done|constructor]. }
  match goal with
  | |- context [resourceIamBindingRead newUpdaterFunc meta ?s1] =>
    destruct (resourceIamBindingRead_calls meta s1) as (made & -> & Hmade)
  end.
  simpl. rewrite <- app_assoc. eexists. split; [done|].
  destruct Hmade; simpl; constructor.
Qed.

Lemma newCalls_app (s s' : State W) made :
  calls s' = calls s ++ made → newCalls s s' = made.
Proof. intros Hc. unfold newCalls. rewrite Hc. apply drop_app_length. Qed.

Lemma readCalls_bounds made : readCalls made → (fetches made ≤ 1)%nat ∧ commits made = 0%nat.
Proof. destruct 1; vm_compute; lia. Qed.

Lemma writeCalls_bounds made :
  writeCalls made → (fetches made ≤ 2)%nat ∧ (commits made ≤ 1)%nat.
Proof. destruct 1; vm_compute; lia. Qed.

(** C8 (amended): read makes at most one fetch and no commit.  Create,
    update and delete make at most two fetches and at most one commit: the
    fetch and the commit of their read-modify-write cycle, in that order,
    and then the fetch of the read they end with. *)
Theorem operations_fetch_and_commit_bounds meta (s : State W) :
  let made op := newCalls s (op newUpdaterFunc meta s).2 in
  (readCalls (made resourceIamBindingRead)
   ∧ (fetches (made resourceIamBindingRead) ≤ 1)%nat
   ∧ commits (made resourceIamBindingRead) = 0%nat)
  ∧ (writeCalls (made resourceIamBindingCreate)
     ∧ (fetches (made resourceIamBindingCreate) ≤ 2)%nat
     ∧ (commits (made resourceIamBindingCreate) ≤ 1)%nat)
  ∧ (writeCalls (made resourceIamBindingUpdate)
     ∧ (fetches (made resourceIamBindingUpdate) ≤ 2)%nat
     ∧ (commits (made resourceIamBindingUpdate) ≤ 1)%nat)
  ∧ (writeCalls (made resourceIamBindingDelete)
     ∧ (fetches (made resourceIamBindingDelete) ≤ 2)%nat
     ∧ (commits (made resourceIamBindingDelete) ≤ 1)%nat).
Proof.
  intros made. subst made. simpl.
  split; [|split; [|split]].
  - destruct (resourceIamBindingRead_calls meta s) as (made & Hc & Hmade).
    rewrite (newCalls_app _ _ _ Hc). split; [done|]. by apply readCalls_bounds.
  - rewrite resourceIamBindingCreate_run.
    destruct (newUpdaterFunc (data s) meta) as [err|updater]; simpl.
    { rewrite (newCalls_app s s []) by (by rewrite app_nil_r).
      split; [constructor|]. apply writeCalls_bounds. constructor. }
    destruct (cycle_then_read_calls meta updater
                (createModify (getResourceIamBinding (data s))) s
                (λ d, with_id d (GetResourceId updater +:+ "/" +:+ d_role (data s))))
      as (made & Hc & Hmade).
    rewrite (newCalls_app _ _ _ Hc). split; [done|]. by apply writeCalls_bounds.
  - rewrite resourceIamBindingUpdate_run.
    destruct (newUpdaterFunc (data s) meta) as [err|updater]; simpl.
    { rewrite (newCalls_app s s []) by (by rewrite app_nil_r).
      split; [constructor|]. apply writeCalls_bounds. constructor. }
    destruct (cycle_then_read_calls meta updater
                (updateModify (getResourceIamBinding (data s))) s (λ d, d))
      as (made & Hc & Hmade).
    destruct (iamPolicyReadModifyWrite updater _ s) as [[e|] [w1 d1 c1]];
      simpl in Hc |- *; unfold newCalls; simpl; rewrite Hc, drop_app_length;
      (split; [done|]); by apply writeCalls_bounds.
  - rewrite resourceIamBindingDelete_run.
    destruct (newUpdaterFunc (data s) meta) as [err|updater]; simpl.
    { rewrite (newCalls_app s s []) by (by rewrite app_nil_r).
      split; [constructor|]. apply writeCalls_bounds. constructor. }
    destruct (cycle_then_read_calls meta updater
                (deleteModify (getResourceIamBinding (data s))) s (λ d, d))
      as (made & Hc & Hmade).
    destruct (iamPolicyReadModifyWrite updater _ s) as [[e|] [w1 d1 c1]];
      simpl in Hc |- *; unfold newCalls; simpl; rewrite Hc, drop_app_length;
      (split; [done|]); by apply writeCalls_bounds.
Qed.

End Operations.

(** C8, as written, fails for create (and likewise for update and delete):
    after its read-modify-write cycle the operation reads, which fetches the
    policy a second time. *)
Lemma create_fetches_twice :
  newCalls fresh_start
    (resourceIamBindingCreate (storeFactory "projects/p") tt fresh_start).2
  = [CallFetch;
     CallCommit {| Etag := "e3";
                   Bindings := [ {| Role := "owner"; Members := ["o"] |};
                                 {| Role := "viewer"; Members := ["a"; "b"] |} ] |};
     CallFetch]
  ∧ ¬ (fetches (newCalls fresh_start
         (resourceIamBindingCreate (storeFactory "projects/p") tt fresh_start).2) ≤ 1)%nat.
Proof. split; [vm_compute; reflexivity|vm_compute; lia]. Qed.

Lemma read_absent_clears_identity_witness :
  resourceIamBindingRead (storeFactory "projects/p") tt
    {| remote := owner_only; data := with_id declared_viewer_ab "projects/p/viewer";
       calls := [] |}
  = (None, {| remote := owner_only; data := with_id declared_viewer_ab "";
              calls := [CallFetch] |}).
Proof.
  apply (read_absent_clears_identity (storeFactory "projects/p") tt
           {| remote := owner_only;
              data := with_id declared_viewer_ab "projects/p/viewer"; calls := [] |}
           (storeUpdater "projects/p") owner_only owner_only).
  - reflexivity.
  - reflexivity.
  - simpl. constructor; [discriminate|constructor].
Defined.

(** ** The mutations never abort the cycle *)

Lemma modify_keeps_etag binding p :
  (∃ bs, createModify binding p = (set_Bindings p bs, None))
  ∧ (∃ bs, updateModify binding p = (set_Bindings p bs, None))
  ∧ (∃ bs, deleteModify binding p = (set_Bindings p bs, None)).
Proof.
  split; [by eexists|].
  destruct (first_entry_split (Role binding) (Bindings p))
    as [Habs|(pre & e & post & Hp & Hpre & He)].
  - rewrite (updateModify_absent _ _ Habs), (deleteModify_absent _ _ Habs).
    split; [by eexists|]. exists (Bindings p). by destruct p.
  - rewrite (updateModify_found _ _ _ _ _ Hp Hpre He).
    rewrite (deleteModify_found _ _ _ _ _ Hp Hpre He). split; by eexists.
Qed.

Lemma cycle_commits_when_modify_succeeds {W} (updater : ResourceIamUpdater W)
    modify (s : State W) p w bs :
  GetResourceIamPolicy updater (remote s) = (inr p, w) →
  modify p = (set_Bindings p bs, None) →
  newCalls s (iamPolicyReadModifyWrite updater modify s).2
  = [CallFetch; CallCommit (modify p).1].
Proof.
  intros Hfetch Hmod.
  rewrite iamPolicyReadModifyWrite_run, Hfetch, Hmod. simpl.
  apply newCalls_logged.
Qed.

Section NeverAbort.
Context {W Config : Type}.
Variable newUpdaterFunc : ResourceData → Config → error + ResourceIamUpdater W.

(** When the fetch succeeds and the mutation returns no error, the calls of
    a cycle followed by a read begin with the fetch and the commit of the
    mutated policy. *)
Lemma cycle_then_read_commits meta (updater : ResourceIamUpdater W) modify
    (s : State W) (touch : ResourceData → ResourceData) p w bs :
  GetResourceIamPolicy updater (remote s) = (inr p, w) →
  modify p = (set_Bindings p bs, None) →
  ∃ rest,
    newCalls s
      (match iamPolicyReadModifyWrite updater modify s with
       | (Some e, s1) => (Some e, s1)
       | (None, s1) =>
         resourceIamBindingRead newUpdaterFunc meta
           {| remote := remote s1; data := touch (data s1); calls := calls s1 |}
       end).2
    = CallFetch :: CallCommit (modify p).1 :: rest.
Proof.
  intros Hfetch Hmod.
  rewrite iamPolicyReadModifyWrite_run, Hfetch, Hmod. simpl.
  destruct (commitPolicy updater _ w) as [[err|] w']; simpl.
  { exists []. apply newCalls_logged. }
  match goal with
  | |- context [resourceIamBindingRead newUpdaterFunc meta ?s1] =>
    destruct (resourceIamBindingRead_calls newUpdaterFunc meta s1)
      as (made & Hc & _)
  end.
  exists made. unfold newCalls. rewrite Hc. simpl.
  rewrite <- app_assoc. apply drop_app_length.
Qed.

(** C9: the mutations of create, update and delete return no error on any
    policy.  So the mutation step never aborts the cycle: for any updater,
    whenever the fetch of the cycle succeeds the cycle goes on to commit the
    mutated policy; and in each of the three operations, whenever the
    updater is built and its fetch succeeds, the calls the operation makes
    begin with that fetch followed by the commit of the mutated policy. *)
Theorem mutations_never_abort meta (binding : Binding)
    (updater : ResourceIamUpdater W) (s : State W) :
  (∀ p, (createModify binding p).2 = None
        ∧ (updateModify binding p).2 = None
        ∧ (deleteModify binding p).2 = None)
  ∧ (∀ p w, GetResourceIamPolicy updater (remote s) = (inr p, w) →
       newCalls s (iamPolicyReadModifyWrite updater (createModify binding) s).2
       = [CallFetch; CallCommit (createModify binding p).1]
       ∧ newCalls s (iamPolicyReadModifyWrite updater (updateModify binding) s).2
         = [CallFetch; CallCommit (updateModify binding p).1]
       ∧ newCalls s (iamPolicyReadModifyWrite updater (deleteModify binding) s).2
         = [CallFetch; CallCommit (deleteModify binding p).1])
  ∧ (∀ p w,
       newUpdaterFunc (data s) meta = inr updater →
       GetResourceIamPolicy updater (remote s) = (inr p, w) →
       (∃ rest,
          newCalls s (resourceIamBindingCreate newUpdaterFunc meta s).2
          = CallFetch
            :: CallCommit (createModify (getResourceIamBinding (data s)) p).1
            :: rest)
       ∧ (∃ rest,
            newCalls s (resourceIamBindingUpdate newUpdaterFunc meta s).2
            = CallFetch
              :: CallCommit (updateModify (getResourceIamBinding (data s)) p).1
              :: rest)
       ∧ (∃ rest,
            newCalls s (resourceIamBindingDelete newUpdaterFunc meta s).2
            = CallFetch
              :: CallCommit (deleteModify (getResourceIamBinding (data s)) p).1
              :: rest)).
Proof.
  split; [|split].
  - intros p.
    destruct (modify_keeps_etag binding p) as ((? & ->) & (? & ->) & (? & ->)).
    done.
  - intros p w Hfetch.
    destruct (modify_keeps_etag binding p) as ((? & Hc) & (? & Hu) & (? & Hd)).
    split; [|split]; eapply cycle_commits_when_modify_succeeds; eauto.
  - intros p w Hnew Hfetch.
    destruct (modify_keeps_etag (getResourceIamBinding (data s)) p)
      as ((bc & Hc) & (bu & Hu) & (bd & Hd)).
    rewrite resourceIamBindingCreate_run, resourceIamBindingUpdate_run,
      resourceIamBindingDelete_run, Hnew. cbv zeta.
    split; [|split].
    + destruct (cycle_then_read_commits meta updater
                  (createModify (getResourceIamBinding (data s))) s
                  (λ d, with_id d (GetResourceId updater +:+ "/"
                                   +:+ Role (getResourceIamBinding (data s))))
                  p w bc Hfetch Hc) as [rest Hrest].
      exists rest. exact Hrest.
    + destruct (cycle_then_read_commits meta updater
                  (updateModify (getResourceIamBinding (data s))) s (λ d, d)
                  p w bu Hfetch Hu) as [rest Hrest].
      exists rest.
      destruct (iamPolicyReadModifyWrite updater _ s) as [[e|] [w1 d1 c1]];
        exact Hrest.
    + destruct (cycle_then_read_commits meta updater
                  (deleteModify (getResourceIamBinding (data s))) s (λ d, d)
                  p w bd Hfetch Hd) as [rest Hrest].
      exists rest.
      destruct (iamPolicyReadModifyWrite updater _ s) as [[e|] [w1 d1 c1]];
        exact Hrest.
Qed.

End NeverAbort.

Lemma mutations_never_abort_witness :
  (∃ rest,
     newCalls tracked_start
       (resourceIamBindingCreate (storeFactory "projects/p") tt tracked_start).2
     = CallFetch
       :: CallCommit (createModify (getResourceIamBinding (data tracked_start))
                        (remote tracked_start)).1
       :: rest)
  ∧ (∃ rest,
       newCalls tracked_start
         (resourceIamBindingUpdate (storeFactory "projects/p") tt tracked_start).2
       = CallFetch
         :: CallCommit (updateModify (getResourceIamBinding (data tracked_start))
                          (remote tracked_start)).1
         :: rest)
  ∧ (∃ rest,
       newCalls tracked_start
         (resourceIamBindingDelete (storeFactory "projects/p") tt tracked_start).2
       = CallFetch
         :: CallCommit (deleteModify (getResourceIamBinding (data tracked_start))
                          (remote tracked_start)).1
         :: rest).
Proof.
  destruct (mutations_never_abort (storeFactory "projects/p") tt
              (getResourceIamBinding (data tracked_start))
              (storeUpdater "projects/p") tracked_start) as (_ & _ & Hops).
  exact (Hops (remote tracked_start) (remote tracked_start) eq_refl eq_refl).
Defined.

Example delete_absent_role_still_commits :
  newCalls fresh_start
    (resourceIamBindingDelete (storeFactory "projects/p") tt fresh_start).2
  = [CallFetch; CallCommit owner_only; CallFetch].
Proof. vm_compute. reflexivity. Qed.

(** ** Create, then the read it ends with *)



Section RoundTrip.
Context {W Config : Type}.
Variable newUpdaterFunc : ResourceData → Config → error + ResourceIamUpdater W.


End RoundTrip.


(** * Further properties of the mutations *)

(** ** Update and delete by recursion on the binding list *)

Lemma replaceFirst_split binding pre e post :
  Forall (λ b, Role b ≠ Role binding) pre → Role e = Role binding →
  replaceFirst binding (pre ++ e :: post) = pre ++ binding :: post.
Proof.
  intros Hpre He. induction Hpre as [|b pre Hb _ IH]; simpl.
  - by rewrite decide_True.
  - rewrite decide_False by done. by rewrite IH.
Qed.

Lemma replaceFirst_absent binding bs :
  Forall (λ b, Role b ≠ Role binding) bs → replaceFirst binding bs = bs ++ [binding].
Proof.
  induction 1 as [|b bs Hb _ IH]; simpl; [done|].
  rewrite decide_False by done. by rewrite IH.
Qed.

Lemma removeFirst_split role pre e post :
  Forall (λ b, Role b ≠ role) pre → Role e = role →
  removeFirst role (pre ++ e :: post) = pre ++ post.
Proof.
  intros Hpre He. induction Hpre as [|b pre Hb _ IH]; simpl.
  - by rewrite decide_True.
  - rewrite decide_False by done. by rewrite IH.
Qed.

Lemma removeFirst_absent role bs :
  Forall (λ b, Role b ≠ role) bs → removeFirst role bs = bs.
Proof.
  induction 1 as [|b bs Hb _ IH]; simpl; [done|].
  rewrite decide_False by done. by rewrite IH.
Qed.

Lemma updateModify_replaceFirst binding p :
  updateModify binding p = (set_Bindings p (replaceFirst binding (Bindings p)), None).
Proof.
  destruct (first_entry_split (Role binding) (Bindings p))
    as [Habs|(pre & e & post & Hp & Hpre & He)].
  - by rewrite (updateModify_absent _ _ Habs), (replaceFirst_absent _ _ Habs).
  - rewrite (updateModify_found _ _ _ _ _ Hp Hpre He), Hp.
    by rewrite (replaceFirst_split _ _ _ _ Hpre He).
Qed.

Lemma deleteModify_removeFirst binding p :
  deleteModify binding p
  = (set_Bindings p (removeFirst (Role binding) (Bindings p)), None).
Proof.
  destruct (first_entry_split (Role binding) (Bindings p))
    as [Habs|(pre & e & post & Hp & Hpre & He)].
  - rewrite (deleteModify_absent _ _ Habs), (removeFirst_absent _ _ Habs).
    by destruct p.
  - rewrite (deleteModify_found _ _ _ _ _ Hp Hpre He), Hp.
    by rewrite (removeFirst_split _ _ _ _ Hpre He).
Qed.

Lemma roleEntries_cons role b bs :
  roleEntries role (b :: bs)
  = if decide (Role b = role) then b :: roleEntries role bs else roleEntries role bs.
Proof.
  unfold roleEntries. destruct (decide (Role b = role)).
  - by rewrite filter_cons_True.
  - by rewrite filter_cons_False.
Qed.

Lemma roleEntries_replaceFirst_other role binding bs :
  role ≠ Role binding →
  roleEntries role (replaceFirst binding bs) = roleEntries role bs.
Proof.
  intros Hne. induction bs as [|b bs IH]; simpl.
  - rewrite roleEntries_cons. by case_decide.
  - case_decide; rewrite !roleEntries_cons; repeat case_decide; congruence.
Qed.

Lemma roleEntries_removeFirst_other role role' bs :
  role ≠ role' →
  roleEntries role (removeFirst role' bs) = roleEntries role bs.
Proof.
  intros Hne. induction bs as [|b bs IH]; simpl; [done|].
  case_decide; rewrite !roleEntries_cons; repeat case_decide; congruence.
Qed.

Lemma roleEntries_replaceFirst binding bs :
  roleEntries (Role binding) (replaceFirst binding bs)
  = binding :: tail (roleEntries (Role binding) bs).
Proof.
  induction bs as [|b bs IH]; simpl.
  - rewrite roleEntries_cons. by case_decide.
  - case_decide; rewrite !roleEntries_cons; repeat case_decide;
      simpl; congruence.
Qed.

Lemma roleEntries_removeFirst role bs :
  roleEntries role (removeFirst role bs) = tail (roleEntries role bs).
Proof.
  induction bs as [|b bs IH]; simpl; [done|].
  case_decide; rewrite !roleEntries_cons; repeat case_decide;
    simpl; congruence.
Qed.

Lemma tail_nil_length {A} (l : list A) : tail l = [] ↔ (length l ≤ 1)%nat.
Proof. destruct l as [|x [|y l]]; simpl; split; intros; try done; try lia. Qed.

Lemma length_replaceFirst binding bs :
  length (replaceFirst binding bs)
  = (length bs + (1 - length (roleEntries (Role binding) bs)))%nat.
Proof.
  induction bs as [|b bs IH]; simpl; [done|].
  rewrite roleEntries_cons. case_decide; simpl in *; lia.
Qed.

Lemma length_removeFirst role bs :
  (length (removeFirst role bs) + min 1 (length (roleEntries role bs)))%nat
  = length bs.
Proof.
  induction bs as [|b bs IH]; simpl; [done|].
  rewrite roleEntries_cons. case_decide; simpl in *; lia.
Qed.

Lemma replaceFirst_idem binding bs :
  replaceFirst binding (replaceFirst binding bs) = replaceFirst binding bs.
Proof.
  induction bs as [|b bs IH]; simpl.
  - by rewrite decide_True.
  - case_decide; simpl.
    + by rewrite decide_True.
    + rewrite decide_False by done. by rewrite IH.
Qed.

Lemma removeFirst_replaceFirst binding bs :
  removeFirst (Role binding) (replaceFirst binding bs)
  = removeFirst (Role binding) bs.
Proof.
  induction bs as [|b bs IH]; simpl.
  - by rewrite decide_True.
  - case_decide; simpl.
    + by rewrite decide_True.
    + rewrite decide_False by done. by rewrite IH.
Qed.


Lemma replaceFirst_removeFirst_comm binding role bs :
  Role binding ≠ role →
  replaceFirst binding (removeFirst role bs)
  = removeFirst role (replaceFirst binding bs).
Proof.
  intros Hne. induction bs as [|b bs IH]; simpl.
  - by rewrite decide_False.
  - repeat (case_decide; simpl); congruence.
Qed.

Lemma replaceFirst_comm binding1 binding2 bs :
  Role binding1 ≠ Role binding2 →
  replaceFirst binding1 (replaceFirst binding2 bs)
  ≡ₚ replaceFirst binding2 (replaceFirst binding1 bs).
Proof.
  intros Hne. induction bs as [|b bs IH]; simpl.
  - rewrite !decide_False by congruence. apply Permutation_swap.
  - repeat (case_decide; simpl); try congruence; try done.
    by apply Permutation_skip.
Qed.

(** ** Other roles are left alone *)

(** X1: update and delete touch the entries of the declared role only: for
    any other role the entries of the policy, in order, are the same before
    and after. *)
Theorem update_delete_leave_other_roles (binding : Binding) (p : Policy)
    (role : string) :
  role ≠ Role binding →
  roleEntries role (Bindings (updateModify binding p).1) = roleEntries role (Bindings p)
  ∧ roleEntries role (Bindings (deleteModify binding p).1) = roleEntries role (Bindings p).
Proof.
  intros Hne. rewrite updateModify_replaceFirst, deleteModify_removeFirst. simpl.
  split.
  - by apply roleEntries_replaceFirst_other.
  - by apply roleEntries_removeFirst_other.
Qed.

Lemma update_delete_leave_other_roles_witness :
  roleEntries "owner"
    (Bindings (updateModify {| Role := "viewer"; Members := ["y"] |} viewer_twice).1)
  = [ {| Role := "owner"; Members := ["o"] |} ]
  ∧ roleEntries "owner"
      (Bindings (deleteModify {| Role := "viewer"; Members := ["y"] |} viewer_twice).1)
    = [ {| Role := "owner"; Members := ["o"] |} ].
Proof.
  apply (update_delete_leave_other_roles
           {| Role := "viewer"; Members := ["y"] |} viewer_twice "owner").
  discriminate.
Defined.

(** ** How update and delete compose *)

(** X2: update is idempotent: applying the update mutation for the same
    declared binding to its own result changes nothing. *)
Theorem update_idempotent (binding : Binding) (p : Policy) :
  updateModify binding (updateModify binding p).1 = updateModify binding p.
Proof.
  rewrite (updateModify_replaceFirst binding p). simpl.
  rewrite updateModify_replaceFirst. simpl.
  by rewrite replaceFirst_idem.
Qed.

(** X3: delete after update is delete: the delete mutation applied to the
    result of the update mutation for the same role gives what delete gives
    on the original policy.  So on a policy without the role, update followed
    by delete gives the policy back. *)
Theorem delete_after_update (binding : Binding) (p : Policy) :
  deleteModify binding (updateModify binding p).1 = deleteModify binding p
  ∧ (Forall (λ b, Role b ≠ Role binding) (Bindings p) →
     deleteModify binding (updateModify binding p).1 = (p, None)).
Proof.
  assert (Heq : deleteModify binding (updateModify binding p).1
                = deleteModify binding p).
  { rewrite (updateModify_replaceFirst binding p). simpl.
    rewrite !deleteModify_removeFirst. simpl.
    by rewrite removeFirst_replaceFirst. }
  split; [done|]. intros Habs. rewrite Heq. by apply deleteModify_absent.
Qed.

Lemma delete_after_update_witness :
  deleteModify {| Role := "editor"; Members := ["e"] |}
    (updateModify {| Role := "editor"; Members := ["e"] |} viewer_xy).1
  = (viewer_xy, None).
Proof.
  apply (delete_after_update {| Role := "editor"; Members := ["e"] |} viewer_xy).
  simpl. constructor; [discriminate|constructor].
Defined.

(** X4: after the delete mutation no entry carries the declared role exactly
    when the fetched policy had at most one entry with that role. *)
Theorem delete_removes_role_iff (binding : Binding) (p : Policy) :
  roleEntries (Role binding) (Bindings (deleteModify binding p).1) = []
  ↔ (length (roleEntries (Role binding) (Bindings p)) ≤ 1)%nat.
Proof.
  rewrite deleteModify_removeFirst. simpl.
  rewrite roleEntries_removeFirst. apply tail_nil_length.
Qed.

(** X5: after the update mutation the declared binding is the only entry
    with its role exactly when the fetched policy had at most one entry with
    that role. *)
Theorem update_exact_iff (binding : Binding) (p : Policy) :
  roleEntries (Role binding) (Bindings (updateModify binding p).1) = [binding]
  ↔ (length (roleEntries (Role binding) (Bindings p)) ≤ 1)%nat.
Proof.
  rewrite updateModify_replaceFirst. simpl.
  rewrite roleEntries_replaceFirst, <- tail_nil_length.
  split; [by intros [= ->]|by intros ->].
Qed.

(** X6: update adds exactly one entry when the role is not bound and keeps
    the number of entries otherwise; delete removes exactly one entry when
    the role is bound and none otherwise. *)
Theorem mutations_entry_count (binding : Binding) (p : Policy) :
  length (Bindings (updateModify binding p).1)
  = (length (Bindings p) + (1 - length (roleEntries (Role binding) (Bindings p))))%nat
  ∧ (length (Bindings (deleteModify binding p).1)
     + min 1 (length (roleEntries (Role binding) (Bindings p))))%nat
    = length (Bindings p).
Proof.
  rewrite updateModify_replaceFirst, deleteModify_removeFirst. simpl.
  split; [apply length_replaceFirst|apply length_removeFirst].
Qed.


(** X8: update and delete of different roles commute. *)
Theorem update_delete_commute (binding1 binding2 : Binding) (p : Policy) :
  Role binding1 ≠ Role binding2 →
  updateModify binding1 (deleteModify binding2 p).1
  = deleteModify binding2 (updateModify binding1 p).1.
Proof.
  intros Hne.
  rewrite (deleteModify_removeFirst binding2 p).
  rewrite (updateModify_replaceFirst binding1 p). simpl.
  rewrite updateModify_replaceFirst, deleteModify_removeFirst. simpl.
  by rewrite replaceFirst_removeFirst_comm.
Qed.

Lemma update_delete_commute_witness :
  updateModify {| Role := "editor"; Members := ["e"] |}
    (deleteModify {| Role := "viewer"; Members := [] |} viewer_twice).1
  = deleteModify {| Role := "viewer"; Members := [] |}
      (updateModify {| Role := "editor"; Members := ["e"] |} viewer_twice).1.
Proof.
  apply (update_delete_commute {| Role := "editor"; Members := ["e"] |}
           {| Role := "viewer"; Members := [] |} viewer_twice).
  discriminate.
Defined.

(** X9: updates of different roles commute up to the order of the entries:
    both orders leave the same etag and the same entries, and differ at most
    in the order in which two appended bindings come. *)
Theorem updates_commute (binding1 binding2 : Binding) (p : Policy) :
  Role binding1 ≠ Role binding2 →
  Etag (updateModify binding1 (updateModify binding2 p).1).1
  = Etag (updateModify binding2 (updateModify binding1 p).1).1
  ∧ Bindings (updateModify binding1 (updateModify binding2 p).1).1
    ≡ₚ Bindings (updateModify binding2 (updateModify binding1 p).1).1.
Proof.
  intros Hne.
  rewrite (updateModify_replaceFirst binding2 p).
  rewrite (updateModify_replaceFirst binding1 p). simpl.
  rewrite !updateModify_replaceFirst. simpl.
  split; [done|]. by apply replaceFirst_comm.
Qed.

Lemma updates_commute_witness :
  Etag (updateModify {| Role := "editor"; Members := ["e"] |}
          (updateModify {| Role := "auditor"; Members := ["u"] |} viewer_xy).1).1
  = Etag (updateModify {| Role := "auditor"; Members := ["u"] |}
            (updateModify {| Role := "editor"; Members := ["e"] |} viewer_xy).1).1
  ∧ Bindings (updateModify {| Role := "editor"; Members := ["e"] |}
                (updateModify {| Role := "auditor"; Members := ["u"] |} viewer_xy).1).1
    ≡ₚ Bindings (updateModify {| Role := "auditor"; Members := ["u"] |}
                   (updateModify {| Role := "editor"; Members := ["e"] |} viewer_xy).1).1.
Proof.
  apply (updates_commute {| Role := "editor"; Members := ["e"] |}
           {| Role := "auditor"; Members := ["u"] |} viewer_xy).
  discriminate.
Defined.

(** * Further properties of the controller operations *)

Lemma roleEntries_nil_absent role bs :
  roleEntries role bs = [] → Forall (λ b, Role b ≠ role) bs.
Proof.
  induction bs as [|b bs IH]; [constructor|].
  rewrite roleEntries_cons. case_decide; [done|]. intros Hnil.
  constructor; [done|by apply IH].
Qed.

Lemma scanRole_replaceFirst binding bs :
  ∃ pos, scanRole (Role binding) (replaceFirst binding bs) = Some (pos, binding).
Proof.
  destruct (first_entry_split (Role binding) bs)
    as [Habs|(pre & e & post & -> & Hpre & He)].
  - rewrite (replaceFirst_absent _ _ Habs).
    exists (length bs). by apply scanRole_first.
  - rewrite (replaceFirst_split _ _ _ _ Hpre He).
    exists (length pre). by apply scanRole_first.
Qed.

Lemma scanRole_removeFirst role bs :
  (length (roleEntries role bs) ≤ 1)%nat →
  scanRole role (removeFirst role bs) = None.
Proof.
  intros Hone. apply scanRole_None, roleEntries_nil_absent.
  rewrite roleEntries_removeFirst. by apply tail_nil_length.
Qed.


Section MoreOperations.
Context {W Config : Type}.
Variable newUpdaterFunc : ResourceData → Config → error + ResourceIamUpdater W.

(** One cycle moves the remote authority and logs calls; the resource data
    is out of its reach. *)
Lemma iamPolicyReadModifyWrite_logged (updater : ResourceIamUpdater W) modify
    (s : State W) :
  ∃ w cs, (iamPolicyReadModifyWrite updater modify s).2 = logged s w cs.
Proof.
  rewrite iamPolicyReadModifyWrite_run.
  destruct (GetResourceIamPolicy updater (remote s)) as [[err|p] w]; [by eexists _, _|].
  destruct (modify p) as [p' [err|]]; by eexists _, _.
Qed.

Lemma read_error_keeps_data meta (s : State W) e :
  (resourceIamBindingRead newUpdaterFunc meta s).1 = Some e →
  data (resourceIamBindingRead newUpdaterFunc meta s).2 = data s.
Proof.
  rewrite resourceIamBindingRead_run.
  destruct (newUpdaterFunc (data s) meta) as [err|updater]; [done|].
  destruct (GetResourceIamPolicy updater (remote s)) as [[err|p] w]; [done|].
  destruct (scanRole _ (Bindings p)) as [[pos binding]|]; done.
Qed.

(** X10: when the updater cannot be built, each of the four operations
    returns the factory's error and has no effect: no call is made to any
    updater and the resource data is as before. *)
Theorem no_updater_no_effect meta (s : State W) err :
  newUpdaterFunc (data s) meta = inl err →
  resourceIamBindingCreate newUpdaterFunc meta s = (Some err, s)
  ∧ resourceIamBindingRead newUpdaterFunc meta s = (Some err, s)
  ∧ resourceIamBindingUpdate newUpdaterFunc meta s = (Some err, s)
  ∧ resourceIamBindingDelete newUpdaterFunc meta s = (Some err, s).
Proof.
  intros Hnew.
  rewrite resourceIamBindingCreate_run, resourceIamBindingRead_run,
    resourceIamBindingUpdate_run, resourceIamBindingDelete_run, Hnew.
  done.
Qed.


(** X12: read never changes the declared role, and the only change it ever
    makes to the identity is to clear it. *)
Theorem read_keeps_role_and_identity meta (s : State W) :
  d_role (data (resourceIamBindingRead newUpdaterFunc meta s).2) = d_role (data s)
  ∧ (d_id (data (resourceIamBindingRead newUpdaterFunc meta s).2) = d_id (data s)
     ∨ d_id (data (resourceIamBindingRead newUpdaterFunc meta s).2) = "").
Proof.
  rewrite resourceIamBindingRead_run.
  destruct (newUpdaterFunc (data s) meta) as [err|updater]; [by auto|].
  destruct (GetResourceIamPolicy updater (remote s)) as [[err|p] w]; [by auto|].
  destruct (scanRole _ (Bindings p)) as [[pos binding]|] eqn:Hscan; simpl; [|by auto].
  apply scanRole_Some in Hscan as (_ & _ & _ & _ & _ & He). auto.
Qed.

(** X13: whenever read returns an error, be it from building the updater or
    from the fetch, the resource data is exactly as before; in particular
    the identity is not cleared. *)
Theorem read_error_leaves_data meta (s : State W) e :
  (resourceIamBindingRead newUpdaterFunc meta s).1 = Some e →
  data (resourceIamBindingRead newUpdaterFunc meta s).2 = data s.
Proof. apply read_error_keeps_data. Qed.

(** X14: whenever update or delete returns an error the resource data is
    exactly as before.  Whenever create returns an error the resource data
    is as before, or differs only in the identity, which create had set
    before the read that failed. *)
Theorem write_error_leaves_data meta (s : State W) e :
  ((resourceIamBindingUpdate newUpdaterFunc meta s).1 = Some e →
   data (resourceIamBindingUpdate newUpdaterFunc meta s).2 = data s)
  ∧ ((resourceIamBindingDelete newUpdaterFunc meta s).1 = Some e →
     data (resourceIamBindingDelete newUpdaterFunc meta s).2 = data s)
  ∧ ((resourceIamBindingCreate newUpdaterFunc meta s).1 = Some e →
     data (resourceIamBindingCreate newUpdaterFunc meta s).2 = data s
     ∨ ∃ updater,
         newUpdaterFunc (data s) meta = inr updater
         ∧ data (resourceIamBindingCreate newUpdaterFunc meta s).2
           = with_id (data s) (GetResourceId updater +:+ "/" +:+ d_role (data s))).
Proof.
  rewrite resourceIamBindingUpdate_run, resourceIamBindingDelete_run,
    resourceIamBindingCreate_run.
  destruct (newUpdaterFunc (data s) meta) as [err|updater]; [by auto|].
  cbv zeta. split; [|split].
  - destruct (iamPolicyReadModifyWrite_logged updater
                (updateModify (getResourceIamBinding (data s))) s) as (w & cs & Hs1).
    destruct (iamPolicyReadModifyWrite updater _ s) as [[e1|] s1];
      simpl in Hs1; subst s1; [done|].
    intros Herr. by rewrite (read_error_keeps_data _ _ _ Herr).
  - destruct (iamPolicyReadModifyWrite_logged updater
                (deleteModify (getResourceIamBinding (data s))) s) as (w & cs & Hs1).
    destruct (iamPolicyReadModifyWrite updater _ s) as [[e1|] s1];
      simpl in Hs1; subst s1; [done|].
    intros Herr. by rewrite (read_error_keeps_data _ _ _ Herr).
  - destruct (iamPolicyReadModifyWrite_logged updater
                (createModify (getResourceIamBinding (data s))) s) as (w & cs & Hs1).
    destruct (iamPolicyReadModifyWrite updater _ s) as [[e1|] s1];
      simpl in Hs1; subst s1; [by auto|].
    intros Herr. right. exists updater. split; [done|].
    by rewrite (read_error_keeps_data _ _ _ Herr).
Qed.

(** X15: let update build its updater, fetch [p0] and commit without error,
    and let the read it ends with fetch a policy [q] with the bindings that
    were committed.  Then update returns no error; the observed members are
    the declared members, whatever [p0] held for the role; the etag is the
    etag of [q]; role and identity are as before (update never sets the
    identity); and the calls are fetch, commit of the mutated policy, fetch. *)
Theorem update_then_read_roundtrip meta (s : State W) updater p0 w1 w2 q w3 :
  let declared := getResourceIamBinding (data s) in
  newUpdaterFunc (data s) meta = inr updater →
  GetResourceIamPolicy updater (remote s) = (inr p0, w1) →
  commitPolicy updater (updateModify declared p0).1 w1 = (None, w2) →
  GetResourceIamPolicy updater w2 = (inr q, w3) →
  Bindings q = Bindings (updateModify declared p0).1 →
  resourceIamBindingUpdate newUpdaterFunc meta s
  = (None, {| remote := w3;
              data := with_etag (data s) (Etag q);
              calls := calls s ++ [CallFetch;
                                   CallCommit (updateModify declared p0).1;
                                   CallFetch] |}).
Proof.
  intros declared Hnew Hfetch Hcommit Hfetch' Hq. subst declared.
  destruct (scanRole_replaceFirst (getResourceIamBinding (data s)) (Bindings p0))
    as [pos Hscan].
  rewrite updateModify_replaceFirst in Hcommit, Hq |- *.
  rewrite resourceIamBindingUpdate_run, Hnew. cbv zeta.
  rewrite iamPolicyReadModifyWrite_run, Hfetch, updateModify_replaceFirst.
  simpl in *. unfold set_Bindings in *. rewrite Hcommit. simpl.
  rewrite resourceIamBindingRead_run. simpl.
  rewrite Hnew, Hfetch', Hq, Hscan. simpl. by rewrite <- app_assoc.
Qed.

(** X16: let delete build its updater, fetch a policy [p0] with at most one
    entry for the declared role and commit without error, and let the read it
    ends with fetch a policy [q] with the bindings that were committed.  Then
    delete returns no error and leaves the identity empty, the rest of the
    resource data as before; the calls are fetch, commit of the mutated
    policy, fetch. *)
Theorem delete_then_read_clears_identity meta (s : State W)
    updater p0 w1 w2 q w3 :
  let declared := getResourceIamBinding (data s) in
  newUpdaterFunc (data s) meta = inr updater →
  GetResourceIamPolicy updater (remote s) = (inr p0, w1) →
  (length (roleEntries (Role declared) (Bindings p0)) ≤ 1)%nat →
  commitPolicy updater (deleteModify declared p0).1 w1 = (None, w2) →
  GetResourceIamPolicy updater w2 = (inr q, w3) →
  Bindings q = Bindings (deleteModify declared p0).1 →
  resourceIamBindingDelete newUpdaterFunc meta s
  = (None, {| remote := w3;
              data := with_id (data s) "";
              calls := calls s ++ [CallFetch;
                                   CallCommit (deleteModify declared p0).1;
                                   CallFetch] |}).
Proof.
  intros declared Hnew Hfetch Hone Hcommit Hfetch' Hq. subst declared.
  pose proof (scanRole_removeFirst _ _ Hone) as Hscan.
  rewrite deleteModify_removeFirst in Hcommit, Hq |- *.
  rewrite resourceIamBindingDelete_run, Hnew. cbv zeta.
  rewrite iamPolicyReadModifyWrite_run, Hfetch, deleteModify_removeFirst.
  simpl in *. unfold set_Bindings in *. rewrite Hcommit. simpl.
  rewrite resourceIamBindingRead_run. simpl.
  rewrite Hnew, Hfetch', Hq, Hscan. simpl. by rewrite <- app_assoc.
Qed.


(** X18: read is stable: a second read that fetches the same policy as the
    first leaves the resource data as the first read left it. *)
Theorem read_twice_same_policy meta (s : State W) updater p w updater' w' :
  let s1 := (resourceIamBindingRead newUpdaterFunc meta s).2 in
  newUpdaterFunc (data s) meta = inr updater →
  GetResourceIamPolicy updater (remote s) = (inr p, w) →
  newUpdaterFunc (data s1) meta = inr updater' →
  GetResourceIamPolicy updater' w = (inr p, w') →
  (resourceIamBindingRead newUpdaterFunc meta s1).1 = None
  ∧ data (resourceIamBindingRead newUpdaterFunc meta s1).2 = data s1.
Proof.
  intros s1 Hnew Hfetch. subst s1.
  rewrite (resourceIamBindingRead_run _ meta s), Hnew, Hfetch.
  destruct (scanRole (d_role (data s)) (Bindings p)) as [[pos e]|] eqn:Hscan;
    simpl; intros Hnew' Hfetch';
    rewrite resourceIamBindingRead_run; simpl; rewrite Hnew', Hfetch'.
  - pose proof Hscan as Hsplit.
    apply scanRole_Some in Hsplit as (_ & _ & _ & _ & _ & He).
    rewrite He, Hscan. simpl. by rewrite He.
  - by rewrite Hscan.
Qed.

End MoreOperations.

(** ** The operations on concrete runs *)

Lemma no_updater_no_effect_witness :
  resourceIamBindingCreate noUpdater tt fresh_start = (Some "no updater", fresh_start)
  ∧ resourceIamBindingRead noUpdater tt fresh_start = (Some "no updater", fresh_start)
  ∧ resourceIamBindingUpdate noUpdater tt fresh_start = (Some "no updater", fresh_start)
  ∧ resourceIamBindingDelete noUpdater tt fresh_start = (Some "no updater", fresh_start).
Proof.
  apply (no_updater_no_effect noUpdater tt fresh_start "no updater").
  reflexivity.
Defined.


Lemma read_error_leaves_data_witness :
  data (resourceIamBindingRead brokenFactory tt tracked_start).2 = data tracked_start.
Proof.
  apply (read_error_leaves_data brokenFactory tt tracked_start "fetch failed").
  reflexivity.
Defined.

Lemma write_error_leaves_data_witness :
  data (resourceIamBindingUpdate brokenFactory tt tracked_start).2 = data tracked_start
  ∧ data (resourceIamBindingDelete brokenFactory tt tracked_start).2 = data tracked_start.
Proof.
  destruct (write_error_leaves_data brokenFactory tt tracked_start "fetch failed")
    as (Hupd & Hdel & _).
  split; [apply Hupd|apply Hdel]; reflexivity.
Defined.

Lemma update_then_read_roundtrip_witness :
  resourceIamBindingUpdate (storeFactory "projects/p") tt tracked_start
  = (None,
     {| remote := {| Etag := "e5";
                     Bindings := [ {| Role := "owner"; Members := ["o"] |};
                                   {| Role := "viewer"; Members := ["a"; "b"] |} ] |};
        data := {| d_id := "projects/p/viewer"; d_role := "viewer";
                   d_members := ["a"; "b"]; d_etag := "e5" |};
        calls := [CallFetch;
                  CallCommit {| Etag := "e5";
                                Bindings := [ {| Role := "owner"; Members := ["o"] |};
                                              {| Role := "viewer";
                                                 Members := ["a"; "b"] |} ] |};
                  CallFetch] |}).
Proof.
  apply (update_then_read_roundtrip (storeFactory "projects/p") tt tracked_start
           (storeUpdater "projects/p") (remote tracked_start) (remote tracked_start)
           (updateModify (getResourceIamBinding (data tracked_start))
              (remote tracked_start)).1
           (updateModify (getResourceIamBinding (data tracked_start))
              (remote tracked_start)).1
           (updateModify (getResourceIamBinding (data tracked_start))
              (remote tracked_start)).1);
    reflexivity.
Defined.

Lemma delete_then_read_clears_identity_witness :
  resourceIamBindingDelete (storeFactory "projects/p") tt tracked_start
  = (None,
     {| remote := {| Etag := "e5";
                     Bindings := [ {| Role := "owner"; Members := ["o"] |} ] |};
        data := {| d_id := ""; d_role := "viewer";
                   d_members := ["a"; "b"]; d_etag := "" |};
        calls := [CallFetch;
                  CallCommit {| Etag := "e5";
                                Bindings := [ {| Role := "owner"; Members := ["o"] |} ] |};
                  CallFetch] |}).
Proof.
  apply (delete_then_read_clears_identity (storeFactory "projects/p") tt tracked_start
           (storeUpdater "projects/p") (remote tracked_start) (remote tracked_start)
           (deleteModify (getResourceIamBinding (data tracked_start))
              (remote tracked_start)).1
           (deleteModify (getResourceIamBinding (data tracked_start))
              (remote tracked_start)).1
           (deleteModify (getResourceIamBinding (data tracked_start))
              (remote tracked_start)).1);
    first [reflexivity | vm_compute; lia].
Defined.


Lemma read_twice_same_policy_witness :
  (resourceIamBindingRead (storeFactory "projects/p") tt
     (resourceIamBindingRead (storeFactory "projects/p") tt tracked_start).2).1 = None
  ∧ data (resourceIamBindingRead (storeFactory "projects/p") tt
            (resourceIamBindingRead (storeFactory "projects/p") tt tracked_start).2).2
    = data (resourceIamBindingRead (storeFactory "projects/p") tt tracked_start).2.
Proof.
  apply (read_twice_same_policy (storeFactory "projects/p") tt tracked_start
           (storeUpdater "projects/p") (remote tracked_start) (remote tracked_start)
           (storeUpdater "projects/p") (remote tracked_start));
    reflexivity.
Defined.
